(** * ios-contacts-fixer: the phone-number repair logic of [app/index.tsx]

    A shallow embedding of the pure part of the contacts screen:
    [isRwandanNumber], [addCountryCode], [removeCountryCode],
    [validateContact], [getNextLabel], the contact filter of [loadContacts]
    and the phone-number list that [handleFix] hands to
    [Contacts.updateContactAsync].

    JavaScript strings are sequences of UTF-16 code units; they are modelled
    as lists of code units ([N]).  String literals of the source are written
    with [js], which maps an ASCII literal to its code units. *)

From Stdlib Require Import Ascii String.
From Stdlib Require Import List NArith Bool Arith Lia.
Import ListNotations.

Set Implicit Arguments.

(** ** JavaScript strings *)

Module JS.

Definition jsstring := list N.

Fixpoint js (s : string) : jsstring :=
  match s with
  | EmptyString => []
  | String a s' => N_of_ascii a :: js s'
  end.

Arguments js s%_string.

(** [a === b] on strings: equality of the code-unit sequences. *)
Fixpoint str_eqb (a b : jsstring) : bool :=
  match a, b with
  | [], [] => true
  | x :: a', y :: b' => N.eqb x y && str_eqb a' b'
  | _, _ => false
  end.

(** [s.startsWith(p)] *)
Fixpoint startsWith (p s : jsstring) : bool :=
  match p, s with
  | [], _ => true
  | x :: p', y :: s' => N.eqb x y && startsWith p' s'
  | _ :: _, [] => false
  end.

(** [s.slice(n)] for a non-negative [n]. *)
Definition slice (n : nat) (s : jsstring) : jsstring := skipn n s.

(** [arr.includes(x)] on an array of strings. *)
Definition includes (arr : list jsstring) (x : jsstring) : bool :=
  existsb (fun y => str_eqb y x) arr.

(** The characters matched by [\s] in a regular expression: the WhiteSpace
    and LineTerminator code points of ECMAScript. *)
Definition is_space (c : N) : bool :=
  ((9 <=? c) && (c <=? 13) || (c =? 32) || (c =? 160) || (c =? 5760)
   || (8192 <=? c) && (c <=? 8202) || (c =? 8232) || (c =? 8233)
   || (c =? 8239) || (c =? 8287) || (c =? 12288) || (c =? 65279))%N.

Definition hyphen : N := 45.
Definition prime : N := 39.

(** [s.replace(/[\s-]/g, "")] *)
Definition strip_separators (s : jsstring) : jsstring :=
  filter (fun c => negb (is_space c || (c =? hyphen)%N)) s.

(** [s.replace(/'/g, '')] *)
Definition remove_primes (s : jsstring) : jsstring :=
  filter (fun c => negb (c =? prime)%N) s.

(** [s.match(/'/g)?.length || 0] *)
Definition count_primes (s : jsstring) : nat :=
  length (filter (fun c => (c =? prime)%N) s).

(** ["'".repeat(n)] *)
Definition primes (n : nat) : jsstring := repeat prime n.

End JS.
Import JS.

(** ** A fragment of JavaScript regular expressions

    [getNextLabel] builds a pattern from a label with [new RegExp].  The
    model covers patterns made of ordinary characters, [.], the assertions
    [^] and [$], and the quantifiers [*], [+], [?] (each optionally followed
    by the lazy marker [?]), without flags.  A pattern that uses a backslash,
    a group, a class, braces or an alternation is reported as [Unmodelled];
    a quantifier with nothing to repeat is the [SyntaxError] that the
    constructor throws. *)

Inductive outcome (A : Type) : Type :=
| Ok (a : A)
| SyntaxError
| Unmodelled.

Arguments SyntaxError {A}.
Arguments Unmodelled {A}.

Definition bind {A B : Type} (m : outcome A) (k : A -> outcome B) : outcome B :=
  match m with
  | Ok a => k a
  | SyntaxError => SyntaxError
  | Unmodelled => Unmodelled
  end.

Notation "x <- m ;; k" := (bind m (fun x => k))
  (at level 61, m at next level, right associativity).

Module RegExp.

Inductive atom : Type :=
| Chr (c : N)
| Dot.

Inductive quant : Type := One | Opt | Star | Plus.

Inductive term : Type :=
| Bol
| Eol
| Rep (a : atom) (q : quant).

Definition regex := list term.

Definition caret : N := 94.
Definition dollar : N := 36.
Definition dot : N := 46.
Definition star : N := 42.
Definition plus : N := 43.
Definition question : N := 63.

Definition is_quantifier (c : N) : bool :=
  ((c =? star) || (c =? plus) || (c =? question))%N.

(** Backslash, parentheses, brackets, braces and the bar. *)
Definition is_unmodelled (c : N) : bool :=
  ((c =? 92) || (c =? 40) || (c =? 41) || (c =? 91) || (c =? 93)
   || (c =? 123) || (c =? 125) || (c =? 124))%N.

(** A character that stands for itself in a pattern. *)
Definition is_plain (c : N) : bool :=
  negb ((c =? caret)%N || (c =? dollar)%N || (c =? dot)%N
        || is_quantifier c || is_unmodelled c).

Definition quant_of (c : N) : quant :=
  if (c =? star)%N then Star else if (c =? plus)%N then Plus else Opt.

Definition atom_of (c : N) : atom :=
  if (c =? dot)%N then Dot else Chr c.

Definition cons_term (t : term) (r : outcome regex) : outcome regex :=
  re <- r ;; Ok (t :: re).

(** The parser of [new RegExp(pattern)]. *)
Fixpoint parse (p : jsstring) : outcome regex :=
  match p with
  | [] => Ok []
  | c :: p1 =>
      if (c =? caret)%N then cons_term Bol (parse p1)
      else if (c =? dollar)%N then cons_term Eol (parse p1)
      else if is_quantifier c then SyntaxError
      else if is_unmodelled c then Unmodelled
      else
        match p1 with
        | [] => Ok [Rep (atom_of c) One]
        | q :: p2 =>
            if is_quantifier q then
              match p2 with
              | [] => Ok [Rep (atom_of c) (quant_of q)]
              | l :: p3 =>
                  if (l =? question)%N
                  then cons_term (Rep (atom_of c) (quant_of q)) (parse p3)
                  else cons_term (Rep (atom_of c) (quant_of q)) (parse p2)
              end
            else cons_term (Rep (atom_of c) One) (parse p1)
        end
  end.

(** [.] matches every code unit but the line terminators. *)
Definition accepts (a : atom) (c : N) : bool :=
  match a with
  | Chr d => (c =? d)%N
  | Dot => negb ((c =? 10) || (c =? 13) || (c =? 8232) || (c =? 8233))%N
  end.

(** Does the pattern match at the current position?  [at0] tells whether
    the position is the start of the input, [s] is the rest of the input. *)
Fixpoint match_here (re : regex) (at0 : bool) (s : jsstring) {struct re} : bool :=
  match re with
  | [] => true
  | Bol :: re' => at0 && match_here re' at0 s
  | Eol :: re' =>
      match s with
      | [] => match_here re' at0 s
      | _ :: _ => false
      end
  | Rep a q :: re' =>
      let many :=
        fix many (at0 : bool) (s : jsstring) {struct s} : bool :=
          match_here re' at0 s
          || match s with
             | [] => false
             | c :: s' => accepts a c && many false s'
             end in
      match q with
      | One =>
          match s with
          | [] => false
          | c :: s' => accepts a c && match_here re' false s'
          end
      | Opt =>
          match_here re' at0 s
          || match s with
             | [] => false
             | c :: s' => accepts a c && match_here re' false s'
             end
      | Star => many at0 s
      | Plus =>
          match s with
          | [] => false
          | c :: s' => accepts a c && many false s'
          end
      end
  end.

(** [re.test(s)]: a match starting at some position of [s]. *)
Fixpoint search (re : regex) (at0 : bool) (s : jsstring) : bool :=
  match_here re at0 s
  || match s with
     | [] => false
     | _ :: s' => search re false s'
     end.

Definition test (re : regex) (s : jsstring) : bool := search re true s.

End RegExp.

(** ** The data model ([types/contact.ts], and the same interfaces in
    [app/index.tsx]) *)

Record PhoneNumber : Type := mkPhone {
  label : jsstring;
  number : jsstring;
  id : option jsstring
}.

Record Contact : Type := mkContact {
  contact_id : jsstring;
  name : jsstring;
  phoneNumbers : list PhoneNumber;
  needsFix : bool
}.

(** What [expo-contacts] returns: every field may be missing. *)
Record ExpoPhoneNumber : Type := mkExpoPhone {
  expo_label : option jsstring;
  expo_number : option jsstring;
  expo_phone_id : option jsstring
}.

Record ExpoContact : Type := mkExpoContact {
  expo_id : option jsstring;
  firstName : option jsstring;
  lastName : option jsstring;
  expo_phoneNumbers : option (list ExpoPhoneNumber)
}.

(** ** The helpers at the top of [app/index.tsx] *)

Definition isRwandanNumber (number : jsstring) : bool :=
  let cleanNumber := strip_separators number in
  startsWith (js "07") cleanNumber || startsWith (js "+2507") cleanNumber.

Definition addCountryCode (number : jsstring) : jsstring :=
  let cleanNumber := strip_separators number in
  if startsWith (js "07") cleanNumber then js "+250" ++ cleanNumber
  else cleanNumber.

Definition removeCountryCode (number : jsstring) : jsstring :=
  let cleanNumber := strip_separators number in
  if startsWith (js "+2507") cleanNumber then slice 3 cleanNumber
  else cleanNumber.

(** The [for] loop of [validateContact]: [true] when the loop ran to its
    end, [false] when it returned early. *)
Fixpoint validate_loop (rwandanNumbers rest : list jsstring) : bool :=
  match rest with
  | [] => true
  | number :: rest' =>
      let withCode := addCountryCode number in
      let withoutCode := removeCountryCode number in
      let hasWithCode := includes rwandanNumbers withCode in
      let hasWithoutCode := includes rwandanNumbers withoutCode in
      if negb hasWithCode || negb hasWithoutCode then false
      else validate_loop rwandanNumbers rest'
  end.

Definition validateContact (phoneNumbers : list PhoneNumber) : bool :=
  let rwandanNumbers :=
    filter isRwandanNumber
      (map (fun p => strip_separators (number p)) phoneNumbers) in
  if validate_loop rwandanNumbers rwandanNumbers
  then negb (length rwandanNumbers =? 0)
  else false.

(** The [forEach] of [getNextLabel], folding [primeCount]. *)
Definition count_existing (labelPattern : RegExp.regex)
    (primeCount : nat) (existing : jsstring) : nat :=
  if RegExp.test labelPattern existing
  then Nat.max primeCount (count_primes existing)
  else primeCount.

Definition getNextLabel (label : jsstring) (existingLabels : list jsstring)
  : outcome jsstring :=
  let baseLabel := remove_primes label in
  labelPattern <- RegExp.parse (js "^" ++ baseLabel ++ js "'*$") ;;
  let primeCount := fold_left (count_existing labelPattern) existingLabels 0 in
  Ok (baseLabel ++ primes (primeCount + 1)).

(** ** The contact filter of [loadContacts] *)

(** JavaScript truthiness of an optional string. *)
Definition truthy (o : option jsstring) : bool :=
  match o with
  | Some (_ :: _) => true
  | _ => false
  end.

(** The [for] loop of the filter: [true] as soon as a number lacks one of
    its two versions. *)
Fixpoint missing_version_loop (rwandanNumbers rest : list jsstring) : bool :=
  match rest with
  | [] => false
  | number :: rest' =>
      let withCode :=
        if startsWith (js "07") number then js "+25" ++ number else number in
      let withoutCode :=
        if startsWith (js "+2507") number then slice 3 number else number in
      let hasWithCode := includes rwandanNumbers withCode in
      let hasWithoutCode := includes rwandanNumbers withoutCode in
      if negb hasWithCode || negb hasWithoutCode then true
      else missing_version_loop rwandanNumbers rest'
  end.

(** The second half of the filter callback, on the numbers of the contact
    that are not [null]. *)
Definition needsBothVersions (numbers : list jsstring) : bool :=
  let rwandanNumbers := filter isRwandanNumber (map strip_separators numbers) in
  if length rwandanNumbers =? 0 then false
  else missing_version_loop rwandanNumbers rwandanNumbers.

Fixpoint present_numbers (phones : list ExpoPhoneNumber) : list jsstring :=
  match phones with
  | [] => []
  | phone :: phones' =>
      match expo_number phone with
      | Some n => n :: present_numbers phones'
      | None => present_numbers phones'
      end
  end.

Definition contactFilter (contact : ExpoContact) : bool :=
  if negb (truthy (expo_id contact))
     || (negb (truthy (firstName contact)) && negb (truthy (lastName contact)))
  then false
  else
    needsBothVersions
      match expo_phoneNumbers contact with
      | Some phones => present_numbers phones
      | None => []
      end.

(** The phone numbers of a formatted contact: only the Rwandan numbers are
    kept.  [formatLabel] stands for
    [phone.label?.replace("_", " ").toLowerCase() || "other"]. *)
Fixpoint formattedPhoneNumbers (formatLabel : option jsstring -> jsstring)
    (phones : list ExpoPhoneNumber) : list PhoneNumber :=
  match phones with
  | [] => []
  | phone :: phones' =>
      match expo_number phone with
      | Some n =>
          if isRwandanNumber n
          then mkPhone (formatLabel (expo_label phone)) n (expo_phone_id phone)
               :: formattedPhoneNumbers formatLabel phones'
          else formattedPhoneNumbers formatLabel phones'
      | None => formattedPhoneNumbers formatLabel phones'
      end
  end.

(** ** The repair of [handleFix] (and, with the same body, of
    [handleFixSelected]) *)

(** [contact.phoneNumbers.some(p => p.number.replace(/[\s-]/g, "") === n)] *)
Definition someNumber (phoneNumbers : list PhoneNumber) (n : jsstring) : bool :=
  existsb (fun p => str_eqb (strip_separators (number p)) n) phoneNumbers.

(** The [for] loop over [rwandanNumbers]; [existingLabels] is the array
    computed before the loop, [updatedPhoneNumbers] the array pushed to. *)
Fixpoint fix_loop (phoneNumbers : list PhoneNumber)
    (existingLabels : list jsstring) (rwandanNumbers : list PhoneNumber)
    (updatedPhoneNumbers : list PhoneNumber) : outcome (list PhoneNumber) :=
  match rwandanNumbers with
  | [] => Ok updatedPhoneNumbers
  | phone :: rest =>
      let cleanNumber := strip_separators (number phone) in
      if startsWith (js "07") cleanNumber then
        let withCode := js "+25" ++ cleanNumber in
        if negb (someNumber phoneNumbers withCode) then
          l <- getNextLabel (label phone) existingLabels ;;
          fix_loop phoneNumbers existingLabels rest
            (updatedPhoneNumbers ++ [mkPhone l withCode None])
        else fix_loop phoneNumbers existingLabels rest updatedPhoneNumbers
      else if startsWith (js "+2507") cleanNumber then
        let withoutCode := slice 3 cleanNumber in
        if negb (someNumber phoneNumbers withoutCode) then
          l <- getNextLabel (label phone) existingLabels ;;
          fix_loop phoneNumbers existingLabels rest
            (updatedPhoneNumbers ++ [mkPhone l withoutCode None])
        else fix_loop phoneNumbers existingLabels rest updatedPhoneNumbers
      else fix_loop phoneNumbers existingLabels rest updatedPhoneNumbers
  end.

(** The list that [handleFix] passes to [Contacts.updateContactAsync]; an
    exception of [getNextLabel] leaves the [try] block before the update. *)
Definition updatedPhoneNumbers (phoneNumbers : list PhoneNumber)
  : outcome (list PhoneNumber) :=
  let existingLabels := map label phoneNumbers in
  let rwandanNumbers :=
    filter (fun p => isRwandanNumber (number p)) phoneNumbers in
  fix_loop phoneNumbers existingLabels rwandanNumbers phoneNumbers.

Definition handleFix (contact : Contact) : outcome (list PhoneNumber) :=
  updatedPhoneNumbers (phoneNumbers contact).

(** The contact after a successful update, as the store holds it. *)
Definition withPhoneNumbers (contact : Contact) (l : list PhoneNumber) : Contact :=
  mkContact (contact_id contact) (name contact) l (needsFix contact).

(** ** Notions used in the statements *)

(** The label, once its primes are removed, has no character with a meaning
    in a regular expression: the pattern of [getNextLabel] then reads it
    literally. *)
Definition plain_label (l : jsstring) : bool :=
  forallb RegExp.is_plain (remove_primes l).

Definition plain_labels (phoneNumbers : list PhoneNumber) : Prop :=
  Forall (fun p => plain_label (label p) = true) phoneNumbers.

(** The other version of a cleaned number, when it is a Rwandan one. *)
Definition counterpart (cleanNumber : jsstring) : option jsstring :=
  if startsWith (js "07") cleanNumber then Some (js "+25" ++ cleanNumber)
  else if startsWith (js "+2507") cleanNumber then Some (slice 3 cleanNumber)
  else None.

(** The version that [phone] lacks among [phoneNumbers], if any. *)
Definition missing (phoneNumbers : list PhoneNumber) (phone : PhoneNumber)
  : option jsstring :=
  match counterpart (strip_separators (number phone)) with
  | Some n => if someNumber phoneNumbers n then None else Some n
  | None => None
  end.

Fixpoint missing_list (phoneNumbers l : list PhoneNumber) : list jsstring :=
  match l with
  | [] => []
  | phone :: l' =>
      match missing phoneNumbers phone with
      | Some n => n :: missing_list phoneNumbers l'
      | None => missing_list phoneNumbers l'
      end
  end.

(** The entries that the loop of [handleFix] pushes, in order. *)
Fixpoint synthesized (phoneNumbers : list PhoneNumber)
    (existingLabels : list jsstring) (l : list PhoneNumber)
  : outcome (list PhoneNumber) :=
  match l with
  | [] => Ok []
  | phone :: l' =>
      match missing phoneNumbers phone with
      | Some n =>
          lbl <- getNextLabel (label phone) existingLabels ;;
          app <- synthesized phoneNumbers existingLabels l' ;;
          Ok (mkPhone lbl n None :: app)
      | None => synthesized phoneNumbers existingLabels l'
      end
  end.

(** The entries of [out] that follow the first [length phoneNumbers]. *)
Definition appended (phoneNumbers out : list PhoneNumber) : list PhoneNumber :=
  skipn (length phoneNumbers) out.

(** How many entries have a number that cleans to [c]. *)
Definition count_clean (c : jsstring) (l : list PhoneNumber) : nat :=
  length (filter (fun p => str_eqb (strip_separators (number p)) c) l).

(** How many entries carry exactly the number [n]. *)
Definition count_number (n : jsstring) (l : list PhoneNumber) : nat :=
  length (filter (fun p => str_eqb (number p) n) l).

(** [nextLabel] as the specification words it.  [primed_count base s] is
    [Some k] when [s] is [base] followed by [k] primes and nothing else. *)
Fixpoint primed_count (base s : jsstring) : option nat :=
  match base, s with
  | [], _ =>
      if forallb (fun c => (c =? prime)%N) s then Some (length s) else None
  | b :: base', c :: s' =>
      if (c =? b)%N then primed_count base' s' else None
  | _ :: _, [] => None
  end.

Fixpoint max_primed (base : jsstring) (existingLabels : list jsstring) : nat :=
  match existingLabels with
  | [] => 0
  | existing :: rest =>
      match primed_count base existing with
      | Some k => Nat.max k (max_primed base rest)
      | None => max_primed base rest
      end
  end.

Definition nextLabel_from (base : jsstring) (existingLabels : list jsstring)
  : jsstring :=
  base ++ primes (max_primed base existingLabels + 1).

Fixpoint strip_trailing_primes (s : jsstring) : jsstring :=
  match s with
  | [] => []
  | c :: s' =>
      match strip_trailing_primes s' with
      | [] => if (c =? prime)%N then [] else [c]
      | r => c :: r
      end
  end.

(** The reading with only the trailing primes of the label stripped. *)
Definition nextLabel_trailing (baseLabel : jsstring)
    (existingLabels : list jsstring) : jsstring :=
  nextLabel_from (strip_trailing_primes baseLabel) existingLabels.

(** The pattern that reads [b] character by character, and the end of the
    pattern of [getNextLabel]: any number of primes, then the end of input. *)
Definition literal (b : jsstring) : RegExp.regex :=
  map (fun c => RegExp.Rep (RegExp.Chr c) RegExp.One) b.

Definition primes_tail : RegExp.regex :=
  [RegExp.Rep (RegExp.Chr prime) RegExp.Star; RegExp.Eol].

(** The array [rwandanNumbers] of the filter, for the entries of a contact. *)
Definition cleanRwandanNumbers (phoneNumbers : list PhoneNumber) : list jsstring :=
  filter isRwandanNumber (map strip_separators (map number phoneNumbers)).

(** The contact as the store returns it. *)
Definition storedContact (contact : Contact) : ExpoContact :=
  mkExpoContact (Some (contact_id contact)) (Some (name contact)) None
    (Some (map (fun p => mkExpoPhone (Some (label p)) (Some (number p)) (id p))
               (phoneNumbers contact))).

(** ** Contacts used as examples *)

(** A phone number without a store id, for the examples. *)
Definition phone (l n : string) : PhoneNumber := mkPhone (js l) (js n) None.

(** A contact with a local number and a foreign one, and its repair. *)
Definition ana : Contact :=
  mkContact (js "17") (js "Ana Uwase")
    [phone "mobile" "078 812-3456"; phone "home" "+15551234567"] true.

Definition ana_repaired : list PhoneNumber :=
  [phone "mobile" "078 812-3456"; phone "home" "+15551234567";
   phone "mobile'" "+250788123456"].

(** Two entries whose numbers clean to the same local number. *)
Definition twins : Contact :=
  mkContact (js "23") (js "Eric Mugisha")
    [phone "mobile" "0788123456"; phone "home" "078 812 3456"] true.

Definition twins_repaired : list PhoneNumber :=
  [phone "mobile" "0788123456"; phone "home" "078 812 3456";
   phone "mobile'" "+250788123456"; phone "home'" "+250788123456"].

(** Two entries with the same label and different local numbers. *)
Definition two_mobiles : Contact :=
  mkContact (js "31") (js "Aline Keza")
    [phone "mobile" "0788111111"; phone "mobile" "0788222222"] true.

Definition two_mobiles_repaired : list PhoneNumber :=
  [phone "mobile" "0788111111"; phone "mobile" "0788222222";
   phone "mobile'" "+250788111111"; phone "mobile'" "+250788222222"].


(** ** The batch repair of [handleFixSelected] *)

(** The argument of a call to [Contacts.updateContactAsync]. *)
Record Update : Type := mkUpdate {
  update_id : jsstring;
  update_phoneNumbers : list PhoneNumber;
  update_name : jsstring
}.

(** [contacts.find((c) => c.id === contactId)] *)
Definition findContact (contacts : list Contact) (contactId : jsstring)
  : option Contact :=
  find (fun c => str_eqb (contact_id c) contactId) contacts.

(** The loop of [handleFixSelected] over the selected ids.  Its body repeats
    the body of [handleFix]; every update is started when it is pushed, so
    the result is the list of the updates started and how the loop ended. *)
Fixpoint fixSelected_loop (contacts : list Contact) (selected : list jsstring)
    (updatePromises : list Update) : list Update * outcome unit :=
  match selected with
  | [] => (updatePromises, Ok tt)
  | contactId :: rest =>
      match findContact contacts contactId with
      | Some contact =>
          match updatedPhoneNumbers (phoneNumbers contact) with
          | Ok l =>
              fixSelected_loop contacts rest
                (updatePromises ++ [mkUpdate (contact_id contact) l (name contact)])
          | SyntaxError => (updatePromises, SyntaxError)
          | Unmodelled => (updatePromises, Unmodelled)
          end
      | None => fixSelected_loop contacts rest updatePromises
      end
  end.

Definition handleFixSelected (contacts : list Contact)
    (selectedContacts : list jsstring) : list Update * outcome unit :=
  fixSelected_loop contacts selectedContacts [].

(** * Properties *)

(** ** Strings *)

Section Strings.

Lemma str_eqb_eq (a b : jsstring) : str_eqb a b = true <-> a = b.
Proof.
  revert b; induction a as [|x a IH]; intros [|y b]; simpl;
    try (split; [discriminate | congruence]); try tauto.
  rewrite andb_true_iff, N.eqb_eq, IH.
  split; [intros [-> ->]; reflexivity | intros [= -> ->]; auto].
Qed.

Lemma str_eqb_refl (a : jsstring) : str_eqb a a = true.
Proof. apply str_eqb_eq; reflexivity. Qed.

Lemma startsWith_iff (p s : jsstring) :
  startsWith p s = true <-> exists t, s = p ++ t.
Proof.
  revert s; induction p as [|x p IH]; intros s; simpl.
  - split; eauto.
  - destruct s as [|y s].
    + split; [discriminate | intros [t [=]]].
    + rewrite andb_true_iff, N.eqb_eq, IH. split.
      * intros [-> [t ->]]; eauto.
      * intros [t [= -> ->]]; eauto.
Qed.

Lemma includes_iff (arr : list jsstring) (x : jsstring) :
  includes arr x = true <-> In x arr.
Proof.
  unfold includes. rewrite existsb_exists. split.
  - intros [y [Hy E]]. apply str_eqb_eq in E. subst; assumption.
  - intros H. exists x. split; [assumption | apply str_eqb_refl].
Qed.

Lemma strip_separators_idem (s : jsstring) :
  strip_separators (strip_separators s) = strip_separators s.
Proof.
  unfold strip_separators. apply forallb_filter_id, forallb_filter.
Qed.

Lemma strip_separators_app (a b : jsstring) :
  strip_separators (a ++ b) = strip_separators a ++ strip_separators b.
Proof. apply filter_app. Qed.

Lemma forallb_skipn {A} (f : A -> bool) (n : nat) (l : list A) :
  forallb f l = true -> forallb f (skipn n l) = true.
Proof.
  revert l; induction n as [|n IH]; intros [|x l]; simpl; auto.
  rewrite andb_true_iff. intros [_ H]. auto.
Qed.

Lemma strip_separators_slice (n : nat) (s : jsstring) :
  strip_separators (slice n (strip_separators s)) = slice n (strip_separators s).
Proof.
  unfold strip_separators, slice.
  apply forallb_filter_id, forallb_skipn, forallb_filter.
Qed.

Lemma local_not_international (c : jsstring) :
  startsWith (js "07") c = true -> startsWith (js "+2507") c = false.
Proof. intros H. apply startsWith_iff in H as [t ->]. reflexivity. Qed.

Lemma slice3_local (c : jsstring) :
  startsWith (js "+2507") c = true -> startsWith (js "07") (slice 3 c) = true.
Proof. intros H. apply startsWith_iff in H as [t ->]. reflexivity. Qed.

Lemma remove_primes_no_prime (s : jsstring) :
  forallb (fun c => negb (c =? prime)%N) (remove_primes s) = true.
Proof. apply forallb_filter. Qed.

Lemma count_primes_app (a b : jsstring) :
  count_primes (a ++ b) = count_primes a + count_primes b.
Proof. unfold count_primes. rewrite filter_app, length_app. reflexivity. Qed.

Lemma count_primes_primes (k : nat) : count_primes (primes k) = k.
Proof.
  unfold count_primes, primes. induction k as [|k IH]; simpl; auto.
Qed.

Lemma count_primes_none (s : jsstring) :
  forallb (fun c => negb (c =? prime)%N) s = true -> count_primes s = 0.
Proof.
  unfold count_primes. induction s as [|c s IH]; simpl; auto.
  rewrite andb_true_iff. intros [Hc Hs].
  apply negb_true_iff in Hc. rewrite Hc. auto.
Qed.

End Strings.

(** ** The pattern of [getNextLabel] on a plain label *)

Module PatternFacts.
Import RegExp.

Lemma is_plain_inv (c : N) :
  is_plain c = true ->
  (c =? caret)%N = false /\ (c =? dollar)%N = false /\ (c =? dot)%N = false
  /\ is_quantifier c = false /\ is_unmodelled c = false.
Proof.
  unfold is_plain. rewrite negb_true_iff, !orb_false_iff. tauto.
Qed.

Lemma parse_plain_cons (c : N) (p : jsstring) :
  is_plain c = true ->
  match p with [] => False | q :: _ => is_quantifier q = false end ->
  parse (c :: p) = cons_term (Rep (Chr c) One) (parse p).
Proof.
  intros Hc Hp. apply is_plain_inv in Hc as (H1 & H2 & H3 & H4 & H5).
  destruct p as [|q p]; [contradiction|].
  cbn [parse]. unfold atom_of. rewrite H1, H2, H3, H4, H5, Hp. reflexivity.
Qed.

Lemma parse_literal (b : jsstring) :
  forallb is_plain b = true ->
  parse (b ++ js "'*$") = Ok (literal b ++ primes_tail).
Proof.
  induction b as [|c b IH]; intros H.
  - reflexivity.
  - simpl in H. apply andb_true_iff in H as [Hc Hb].
    change ((c :: b) ++ js "'*$") with (c :: (b ++ js "'*$")).
    rewrite parse_plain_cons; trivial.
    + rewrite IH by assumption. reflexivity.
    + destruct b as [|q b]; [reflexivity|].
      simpl in Hb. apply andb_true_iff in Hb as [Hq _].
      apply is_plain_inv in Hq. simpl. tauto.
Qed.

Lemma parse_labelPattern (b : jsstring) :
  forallb is_plain b = true ->
  parse (js "^" ++ b ++ js "'*$") = Ok (Bol :: literal b ++ primes_tail).
Proof.
  intros H. change (js "^" ++ b ++ js "'*$") with (caret :: (b ++ js "'*$")).
  cbn [parse]. rewrite N.eqb_refl, parse_literal by assumption. reflexivity.
Qed.

Lemma match_primes_tail (at0 : bool) (s : jsstring) :
  match_here primes_tail at0 s = forallb (fun c => (c =? prime)%N) s.
Proof.
  revert at0; induction s as [|c s IH]; intros at0.
  - reflexivity.
  - specialize (IH false). simpl in *. rewrite IH. reflexivity.
Qed.

Lemma match_literal (b : jsstring) (at0 : bool) (s : jsstring) :
  match_here (literal b ++ primes_tail) at0 s = true <->
  exists k, primed_count b s = Some k.
Proof.
  revert at0 s; induction b as [|c b IH]; intros at0 s.
  - change (literal [] ++ primes_tail) with primes_tail.
    rewrite match_primes_tail. simpl.
    destruct (forallb _ s); split; eauto; try discriminate.
    intros [k [=]].
  - destruct s as [|d s]; simpl.
    + split; [discriminate | intros [k [=]]].
    + destruct (d =? c)%N; simpl.
      * apply IH.
      * split; [discriminate | intros [k [=]]].
Qed.

Lemma search_Bol_false (re : regex) (s : jsstring) :
  search (Bol :: re) false s = false.
Proof. induction s as [|c s IH]; simpl; auto. Qed.

Lemma test_labelPattern (b s : jsstring) :
  test (Bol :: literal b ++ primes_tail) s = true <->
  exists k, primed_count b s = Some k.
Proof.
  unfold test. rewrite <- (match_literal b true s).
  destruct s as [|c s]; cbn [search].
  - rewrite orb_false_r. simpl. tauto.
  - rewrite search_Bol_false, orb_false_r. simpl. tauto.
Qed.

End PatternFacts.

(** ** [getNextLabel] *)

Section NextLabel.

Lemma primed_count_iff (b s : jsstring) (k : nat) :
  primed_count b s = Some k <-> s = b ++ primes k.
Proof.
  revert s; induction b as [|c b IH]; intros s; simpl.
  - destruct (forallb _ s) eqn:E.
    + assert (Hs : s = primes (length s)).
      { clear -E. induction s as [|c s IH]; simpl in *; auto.
        apply andb_true_iff in E as [Hc Hs]. apply N.eqb_eq in Hc.
        subst c. unfold primes in *. simpl. f_equal. auto. }
      split.
      * intros [= <-]. assumption.
      * intros ->. unfold primes. rewrite repeat_length. reflexivity.
    + split; [discriminate|]. intros ->. exfalso.
      assert (forallb (fun c => (c =? prime)%N) (primes k) = true).
      { clear. induction k; simpl; auto. }
      congruence.
  - destruct s as [|d s].
    + split; [discriminate | intros [=]].
    + destruct (N.eqb_spec d c) as [->|Hne].
      * rewrite IH. split; [intros ->; reflexivity | intros [= ->]; reflexivity].
      * split; [discriminate | intros [= ? _]; contradiction].
Qed.

Lemma primed_count_count_primes (b s : jsstring) (k : nat) :
  forallb (fun c => negb (c =? prime)%N) b = true ->
  primed_count b s = Some k -> count_primes s = k.
Proof.
  intros Hb H. apply primed_count_iff in H. subst s.
  rewrite count_primes_app, count_primes_none, count_primes_primes; auto.
Qed.

Lemma count_existing_plain (b : jsstring) (acc : nat) (existing : jsstring) :
  forallb (fun c => negb (c =? prime)%N) b = true ->
  count_existing (RegExp.Bol :: literal b ++ primes_tail) acc existing =
  match primed_count b existing with
  | Some k => Nat.max acc k
  | None => acc
  end.
Proof.
  intros Hb. unfold count_existing.
  destruct (RegExp.test _ existing) eqn:T.
  - apply PatternFacts.test_labelPattern in T as [k Hk]. rewrite Hk.
    f_equal. eapply primed_count_count_primes; eauto.
  - destruct (primed_count b existing) as [k|] eqn:E; auto.
    assert (RegExp.test (RegExp.Bol :: literal b ++ primes_tail) existing = true)
      by (apply PatternFacts.test_labelPattern; eauto).
    congruence.
Qed.

Lemma fold_count_existing (b : jsstring) (existingLabels : list jsstring) (acc : nat) :
  forallb (fun c => negb (c =? prime)%N) b = true ->
  fold_left (count_existing (RegExp.Bol :: literal b ++ primes_tail))
    existingLabels acc
  = Nat.max acc (max_primed b existingLabels).
Proof.
  intros Hb. revert acc.
  induction existingLabels as [|e l IH]; intros acc; simpl.
  - lia.
  - rewrite IH, count_existing_plain by assumption.
    destruct (primed_count b e); lia.
Qed.

(** On a plain label the code computes the label of the specification,
    from the label with all its primes removed. *)
Lemma getNextLabel_plain (label : jsstring) (existingLabels : list jsstring) :
  plain_label label = true ->
  getNextLabel label existingLabels
  = Ok (nextLabel_from (remove_primes label) existingLabels).
Proof.
  intros H. unfold getNextLabel, plain_label in *.
  rewrite PatternFacts.parse_labelPattern by assumption. cbn [bind].
  rewrite fold_count_existing by apply remove_primes_no_prime.
  reflexivity.
Qed.

Lemma max_primed_upper (b : jsstring) (existingLabels : list jsstring) (k : nat) :
  In (b ++ primes k) existingLabels -> k <= max_primed b existingLabels.
Proof.
  induction existingLabels as [|e l IH]; simpl; [tauto|].
  intros [->|H].
  - rewrite (proj2 (primed_count_iff b (b ++ primes k) k) eq_refl). lia.
  - specialize (IH H). destruct (primed_count b e); lia.
Qed.

Lemma max_primed_attained (b : jsstring) (existingLabels : list jsstring) :
  max_primed b existingLabels = 0
  \/ In (b ++ primes (max_primed b existingLabels)) existingLabels.
Proof.
  induction existingLabels as [|e l IH]; simpl; [auto|].
  destruct (primed_count b e) as [k|] eqn:E.
  - apply primed_count_iff in E.
    destruct (Nat.max_spec k (max_primed b l)) as [[Hlt ->]|[Hle ->]].
    + destruct IH as [IH|IH]; [lia | auto].
    + right. left. auto.
  - destruct IH; auto.
Qed.

(** The synthesized label is none of the labels it was computed from. *)
Lemma nextLabel_from_fresh (b : jsstring) (existingLabels : list jsstring) :
  ~ In (nextLabel_from b existingLabels) existingLabels.
Proof.
  unfold nextLabel_from. intros H. apply max_primed_upper in H. lia.
Qed.

End NextLabel.

(** ** Counterparts *)

Section Counterparts.

Lemma counterpart_cases (c m : jsstring) :
  counterpart c = Some m ->
  (exists t, c = js "07" ++ t /\ m = js "+2507" ++ t)
  \/ (exists t, c = js "+2507" ++ t /\ m = js "07" ++ t).
Proof.
  unfold counterpart.
  destruct (startsWith (js "07") c) eqn:L.
  - apply startsWith_iff in L as [t ->]. intros [= <-]. left. eauto.
  - destruct (startsWith (js "+2507") c) eqn:I; [|discriminate].
    apply startsWith_iff in I as [t ->]. intros [= <-]. right. eauto.
Qed.

Lemma counterpart_involutive (c m : jsstring) :
  counterpart c = Some m -> counterpart m = Some c.
Proof.
  intros H. apply counterpart_cases in H as [[t [-> ->]]|[t [-> ->]]];
    reflexivity.
Qed.

Lemma counterpart_injective (c c' m : jsstring) :
  counterpart c = Some m -> counterpart c' = Some m -> c = c'.
Proof.
  intros H H'. apply counterpart_involutive in H, H'. congruence.
Qed.

Lemma counterpart_clean (c m : jsstring) :
  strip_separators c = c -> counterpart c = Some m -> strip_separators m = m.
Proof.
  intros Hc H. apply counterpart_cases in H as [[t [-> ->]]|[t [-> ->]]].
  - rewrite strip_separators_app in Hc |- *.
    apply app_inv_head in Hc. rewrite Hc. reflexivity.
  - rewrite strip_separators_app in Hc |- *.
    apply app_inv_head in Hc. rewrite Hc. reflexivity.
Qed.

Lemma counterpart_isRwandan (c : jsstring) :
  strip_separators c = c ->
  isRwandanNumber c = true <-> exists m, counterpart c = Some m.
Proof.
  intros Hc. unfold isRwandanNumber, counterpart. rewrite Hc.
  destruct (startsWith (js "07") c), (startsWith (js "+2507") c);
    cbn [orb]; split; eauto; try discriminate.
  intros [m Hm]; discriminate.
Qed.

Lemma isRwandanNumber_counterpart (n : jsstring) :
  isRwandanNumber n = false -> counterpart (strip_separators n) = None.
Proof.
  unfold isRwandanNumber, counterpart. intros H.
  apply orb_false_iff in H as [-> ->]. reflexivity.
Qed.

Lemma someNumber_iff (phoneNumbers : list PhoneNumber) (n : jsstring) :
  someNumber phoneNumbers n = true <->
  exists p, In p phoneNumbers /\ strip_separators (number p) = n.
Proof.
  unfold someNumber. rewrite existsb_exists.
  split; intros [p [Hp E]]; exists p; split; auto; now apply str_eqb_eq.
Qed.

Lemma someNumber_app (l l' : list PhoneNumber) (n : jsstring) :
  someNumber (l ++ l') n = someNumber l n || someNumber l' n.
Proof. apply existsb_app. Qed.

Lemma missing_Some (phoneNumbers : list PhoneNumber) (p : PhoneNumber) (m : jsstring) :
  missing phoneNumbers p = Some m <->
  counterpart (strip_separators (number p)) = Some m
  /\ someNumber phoneNumbers m = false.
Proof.
  unfold missing.
  destruct (counterpart (strip_separators (number p))) as [n|].
  - destruct (someNumber phoneNumbers n) eqn:E; split.
    + discriminate.
    + intros [Hn Hs]. injection Hn as ->. congruence.
    + intros Hn. injection Hn as ->. auto.
    + intros [Hn _]. injection Hn as ->. reflexivity.
  - split; [discriminate | intros [Hn _]; discriminate].
Qed.

Lemma missing_clean (phoneNumbers : list PhoneNumber) (p : PhoneNumber) (m : jsstring) :
  missing phoneNumbers p = Some m -> strip_separators m = m.
Proof.
  intros H. apply missing_Some in H as [H _].
  eapply counterpart_clean; [apply strip_separators_idem | eassumption].
Qed.

Lemma missing_not_Rwandan (phoneNumbers : list PhoneNumber) (p : PhoneNumber) :
  isRwandanNumber (number p) = false -> missing phoneNumbers p = None.
Proof.
  intros H. unfold missing. rewrite isRwandanNumber_counterpart; auto.
Qed.

Lemma missing_list_In (phoneNumbers l : list PhoneNumber) (m : jsstring) :
  In m (missing_list phoneNumbers l) <->
  exists p, In p l /\ missing phoneNumbers p = Some m.
Proof.
  induction l as [|q l IH]; simpl.
  - split; [tauto | intros [p [[] _]]].
  - destruct (missing phoneNumbers q) as [n|] eqn:E; simpl; rewrite IH.
    + split.
      * intros [->|[p [Hp Hm]]]; eauto.
      * intros [p [[->|Hp] Hm]]; [left; congruence | eauto].
    + split.
      * intros [p [Hp Hm]]; eauto.
      * intros [p [[->|Hp] Hm]]; [congruence | eauto].
Qed.

End Counterparts.

(** ** The loop of [handleFix] *)

Section Repair.

Lemma bind_Ok {A B} (m : outcome A) (k : A -> outcome B) (b : B) :
  bind m k = Ok b -> exists a, m = Ok a /\ k a = Ok b.
Proof. destruct m; simpl; intros H; try discriminate. eauto. Qed.

Variable phoneNumbers : list PhoneNumber.
Variable existingLabels : list jsstring.

Lemma fix_loop_step (p : PhoneNumber) (rest acc : list PhoneNumber) :
  fix_loop phoneNumbers existingLabels (p :: rest) acc =
  match missing phoneNumbers p with
  | Some n =>
      l <- getNextLabel (label p) existingLabels ;;
      fix_loop phoneNumbers existingLabels rest (acc ++ [mkPhone l n None])
  | None => fix_loop phoneNumbers existingLabels rest acc
  end.
Proof.
  cbn [fix_loop]. unfold missing, counterpart.
  destruct (startsWith (js "07") (strip_separators (number p))).
  - destruct (someNumber phoneNumbers _); reflexivity.
  - destruct (startsWith (js "+2507") (strip_separators (number p))).
    + destruct (someNumber phoneNumbers _); reflexivity.
    + reflexivity.
Qed.

Lemma fix_loop_synthesized (l acc : list PhoneNumber) :
  fix_loop phoneNumbers existingLabels l acc =
  (app <- synthesized phoneNumbers existingLabels l ;; Ok (acc ++ app)).
Proof.
  revert acc; induction l as [|p l IH]; intros acc.
  - simpl. rewrite app_nil_r. reflexivity.
  - rewrite fix_loop_step. cbn [synthesized].
    destruct (missing phoneNumbers p) as [n|]; [|apply IH].
    destruct (getNextLabel (label p) existingLabels) as [lbl| |];
      cbn [bind]; try reflexivity.
    rewrite IH.
    destruct (synthesized phoneNumbers existingLabels l) as [app| |];
      cbn [bind]; try reflexivity.
    rewrite <- app_assoc. reflexivity.
Qed.

Lemma synthesized_filter (l : list PhoneNumber) :
  synthesized phoneNumbers existingLabels
    (filter (fun p => isRwandanNumber (number p)) l)
  = synthesized phoneNumbers existingLabels l.
Proof.
  induction l as [|q l IH]; simpl; auto.
  destruct (isRwandanNumber (number q)) eqn:E; simpl.
  - rewrite IH. reflexivity.
  - rewrite (missing_not_Rwandan phoneNumbers q E). assumption.
Qed.

Lemma synthesized_numbers (l app : list PhoneNumber) :
  synthesized phoneNumbers existingLabels l = Ok app ->
  map number app = missing_list phoneNumbers l.
Proof.
  revert app; induction l as [|p l IH]; intros app; simpl.
  - intros [= <-]. reflexivity.
  - destruct (missing phoneNumbers p) as [n|]; [|apply IH].
    intros H. apply bind_Ok in H as [lbl [_ H]].
    apply bind_Ok in H as [app' [H' H]]. injection H as <-.
    simpl. f_equal. auto.
Qed.

Lemma synthesized_shape (l app : list PhoneNumber) :
  synthesized phoneNumbers existingLabels l = Ok app ->
  Forall (fun q => id q = None
                   /\ exists p, In p l
                        /\ missing phoneNumbers p = Some (number q)
                        /\ getNextLabel (label p) existingLabels = Ok (label q))
         app.
Proof.
  revert app; induction l as [|p l IH]; intros app; simpl.
  - intros [= <-]. constructor.
  - destruct (missing phoneNumbers p) as [n|] eqn:M.
    + intros H. apply bind_Ok in H as [lbl [L H]].
      apply bind_Ok in H as [app' [H' H]]. injection H as <-.
      constructor.
      * simpl. split; [reflexivity|]. exists p. auto.
      * eapply Forall_impl; [|apply IH; eassumption].
        simpl. intros q [Hid [p' [Hin Hp']]]. split; [assumption|].
        exists p'. auto.
    + intros H. eapply Forall_impl; [|apply IH; eassumption].
      simpl. intros q [Hid [p' [Hin Hp']]]. split; [assumption|].
      exists p'. auto.
Qed.

Lemma synthesized_total (l : list PhoneNumber) :
  plain_labels l ->
  exists app, synthesized phoneNumbers existingLabels l = Ok app.
Proof.
  induction 1 as [|p l Hp _ [app IH]]; simpl.
  - eauto.
  - destruct (missing phoneNumbers p); [|eauto].
    rewrite getNextLabel_plain, IH by assumption. simpl. eauto.
Qed.

Lemma synthesized_nil (l : list PhoneNumber) :
  missing_list phoneNumbers l = [] ->
  synthesized phoneNumbers existingLabels l = Ok [].
Proof.
  induction l as [|p l IH]; simpl; auto.
  destruct (missing phoneNumbers p); [discriminate | assumption].
Qed.

End Repair.

Lemma updatedPhoneNumbers_synthesized (phoneNumbers : list PhoneNumber) :
  updatedPhoneNumbers phoneNumbers =
  (app <- synthesized phoneNumbers (map label phoneNumbers) phoneNumbers ;;
   Ok (phoneNumbers ++ app)).
Proof.
  unfold updatedPhoneNumbers.
  rewrite fix_loop_synthesized, synthesized_filter. reflexivity.
Qed.

(** What a completed repair returns: the input list, followed by one fresh
    entry for every missing version, in the order of the source entries. *)
Lemma handleFix_Ok (contact : Contact) (out : list PhoneNumber) :
  handleFix contact = Ok out <->
  exists app,
    synthesized (phoneNumbers contact) (map label (phoneNumbers contact))
      (phoneNumbers contact) = Ok app
    /\ out = phoneNumbers contact ++ app.
Proof.
  unfold handleFix. rewrite updatedPhoneNumbers_synthesized. split.
  - intros H. apply bind_Ok in H as [app [H E]]. injection E as <-. eauto.
  - intros [app [-> ->]]. reflexivity.
Qed.

Lemma handleFix_total (contact : Contact) :
  plain_labels (phoneNumbers contact) -> exists out, handleFix contact = Ok out.
Proof.
  intros H.
  destruct (synthesized_total (phoneNumbers contact)
              (map label (phoneNumbers contact)) H) as [app Happ].
  exists (phoneNumbers contact ++ app). apply handleFix_Ok. eauto.
Qed.

Lemma appended_app (l app : list PhoneNumber) : appended l (l ++ app) = app.
Proof.
  unfold appended. rewrite skipn_app, skipn_all, Nat.sub_diag. reflexivity.
Qed.

(** After a completed repair no entry of the list lacks its other version. *)
Lemma handleFix_closed (contact : Contact) (out : list PhoneNumber) :
  handleFix contact = Ok out ->
  forall q, In q out -> missing out q = None.
Proof.
  intros H q Hq. apply handleFix_Ok in H as [app [Hs ->]].
  destruct (missing (phoneNumbers contact ++ app) q) as [m|] eqn:M; trivial.
  exfalso. pose proof (missing_clean _ _ M) as Hclean.
  apply missing_Some in M as [Hc Hn].
  rewrite someNumber_app in Hn. apply orb_false_iff in Hn as [Hn1 Hn2].
  apply in_app_or in Hq as [Hq|Hq].
  - assert (Hm : In m (missing_list (phoneNumbers contact) (phoneNumbers contact))).
    { apply missing_list_In. exists q. split; trivial.
      apply missing_Some. auto. }
    rewrite <- (synthesized_numbers _ _ _ Hs) in Hm.
    apply in_map_iff in Hm as [q' [Hnum Hq']].
    assert (someNumber app m = true); [|congruence].
    apply someNumber_iff. exists q'. split; congruence.
  - pose proof (synthesized_shape _ _ _ Hs) as Hshape.
    rewrite Forall_forall in Hshape.
    destruct (Hshape q Hq) as [_ [p [Hp [Hmiss _]]]].
    pose proof (missing_clean _ _ Hmiss) as Hq_clean.
    apply missing_Some in Hmiss as [Hcp _].
    apply counterpart_involutive in Hcp.
    rewrite Hq_clean in Hc.
    assert (someNumber (phoneNumbers contact) m = true); [|congruence].
    apply someNumber_iff. exists p. split; congruence.
Qed.

Lemma missing_list_nil (phoneNumbers l : list PhoneNumber) :
  (forall q, In q l -> missing phoneNumbers q = None) ->
  missing_list phoneNumbers l = [].
Proof.
  intros H. destruct (missing_list phoneNumbers l) as [|m r] eqn:E; trivial.
  assert (Hm : In m (missing_list phoneNumbers l)) by (rewrite E; left; auto).
  apply missing_list_In in Hm as [p [Hp Hm]]. rewrite (H p Hp) in Hm.
  discriminate.
Qed.

(** ** The claims on the repair *)

(** C3.  The repair is idempotent: when [handleFix] returns the list [out]
    for a contact, running it on the contact that holds [out] returns [out]
    again, with nothing appended; and it does return a list whenever the
    labels of the contact are plain. *)
Theorem handleFix_idempotent (contact : Contact) :
  (plain_labels (phoneNumbers contact) ->
   exists out, handleFix contact = Ok out)
  /\ forall out, handleFix contact = Ok out ->
       handleFix (withPhoneNumbers contact out) = Ok out.
Proof.
  split; [apply handleFix_total|].
  intros out H. apply handleFix_Ok. exists []. simpl. split.
  - apply synthesized_nil, missing_list_nil.
    apply (handleFix_closed contact). assumption.
  - rewrite app_nil_r. reflexivity.
Qed.

Lemma handleFix_idempotent_witness :
  handleFix ana = Ok ana_repaired
  /\ handleFix (withPhoneNumbers ana ana_repaired) = Ok ana_repaired.
Proof.
  split; [reflexivity|].
  apply (proj2 (handleFix_idempotent ana) ana_repaired). reflexivity.
Defined.

(** C4.  Closure of the repaired list: in the list [handleFix] returns,
    every entry whose cleaned number starts with "07" has an entry whose
    cleaned number is "+25" followed by it, and every entry whose cleaned
    number starts with "+2507" has an entry whose cleaned number is that
    number without its first three characters. *)
Theorem handleFix_closure (contact : Contact) :
  (plain_labels (phoneNumbers contact) ->
   exists out, handleFix contact = Ok out)
  /\ forall out, handleFix contact = Ok out ->
       forall p, In p out ->
         let cleanNumber := strip_separators (number p) in
         (startsWith (js "07") cleanNumber = true ->
          someNumber out (js "+25" ++ cleanNumber) = true)
         /\ (startsWith (js "+2507") cleanNumber = true ->
             someNumber out (slice 3 cleanNumber) = true).
Proof.
  split; [apply handleFix_total|].
  intros out H p Hp cleanNumber.
  pose proof (handleFix_closed contact H p Hp) as M.
  unfold missing, counterpart in M. fold cleanNumber in M.
  split; intros S.
  - rewrite S in M.
    destruct (someNumber out (js "+25" ++ cleanNumber)); [reflexivity | discriminate].
  - rewrite (proj1 (not_true_iff_false _)) in M.
    + rewrite S in M.
      destruct (someNumber out (slice 3 cleanNumber)); [reflexivity | discriminate].
    + intros L. apply local_not_international in L. congruence.
Qed.

Lemma handleFix_closure_witness :
  handleFix ana = Ok ana_repaired
  /\ someNumber ana_repaired (js "+250788123456") = true
  /\ someNumber ana_repaired (js "0788123456") = true.
Proof.
  split; [reflexivity|].
  pose proof (proj2 (handleFix_closure ana) ana_repaired eq_refl) as H.
  split.
  - apply (proj1 (H (phone "mobile" "078 812-3456") (or_introl eq_refl))).
    reflexivity.
  - apply (proj2 (H (phone "mobile'" "+250788123456")
                    (or_intror (or_intror (or_introl eq_refl))))).
    reflexivity.
Defined.

Lemma missing_isRwandan (phoneNumbers : list PhoneNumber) (p : PhoneNumber) (m : jsstring) :
  missing phoneNumbers p = Some m -> isRwandanNumber m = true.
Proof.
  intros H. pose proof (missing_clean _ _ H) as Hm.
  apply missing_Some in H as [H _]. apply counterpart_involutive in H.
  apply counterpart_isRwandan; eauto.
Qed.

Lemma synthesized_Rwandan (phoneNumbers : list PhoneNumber)
    (existingLabels : list jsstring) (l app : list PhoneNumber) :
  synthesized phoneNumbers existingLabels l = Ok app ->
  forall q, In q app -> isRwandanNumber (number q) = true /\ id q = None.
Proof.
  intros H q Hq. apply synthesized_shape in H. rewrite Forall_forall in H.
  destruct (H q Hq) as [Hid [p [_ [Hm _]]]].
  split; [eapply missing_isRwandan; eassumption | assumption].
Qed.




(** C8.  Nothing is deleted or reordered: the list [handleFix] returns
    starts with the input list, entry by entry (label, number and id), and
    what follows are the appended entries, which carry no id. *)
Theorem handleFix_prefix (contact : Contact) :
  (plain_labels (phoneNumbers contact) ->
   exists out, handleFix contact = Ok out)
  /\ forall out, handleFix contact = Ok out ->
       out = phoneNumbers contact ++ appended (phoneNumbers contact) out
       /\ firstn (length (phoneNumbers contact)) out = phoneNumbers contact
       /\ (forall i p, nth_error (phoneNumbers contact) i = Some p ->
                       nth_error out i = Some p)
       /\ (forall q, In q (appended (phoneNumbers contact) out) -> id q = None).
Proof.
  split; [apply handleFix_total|].
  intros out H. apply handleFix_Ok in H as [app [Hs ->]].
  rewrite appended_app. repeat split.
  - rewrite firstn_app, firstn_all, Nat.sub_diag. simpl. apply app_nil_r.
  - intros i p Hi. rewrite nth_error_app1; trivial.
    apply nth_error_Some. congruence.
  - intros q Hq. apply (synthesized_Rwandan _ _ _ Hs q Hq).
Qed.

Lemma handleFix_prefix_witness :
  handleFix ana = Ok ana_repaired
  /\ firstn 2 ana_repaired = phoneNumbers ana.
Proof.
  split; [reflexivity|].
  apply (proj2 (handleFix_prefix ana) ana_repaired eq_refl).
Defined.

(** ** Labels and duplicates *)

Lemma synthesized_count (phoneNumbers : list PhoneNumber)
    (existingLabels : list jsstring) (c m : jsstring)
    (l app : list PhoneNumber) :
  counterpart c = Some m ->
  someNumber phoneNumbers m = false ->
  synthesized phoneNumbers existingLabels l = Ok app ->
  count_number m app = count_clean c l.
Proof.
  intros Hc Hm. revert app. unfold count_number, count_clean.
  induction l as [|p l IH]; intros app; simpl.
  - intros [= <-]. reflexivity.
  - destruct (str_eqb (strip_separators (number p)) c) eqn:E.
    + apply str_eqb_eq in E.
      assert (M : missing phoneNumbers p = Some m)
        by (apply missing_Some; split; congruence).
      rewrite M. intros H. apply bind_Ok in H as [lbl [_ H]].
      apply bind_Ok in H as [app' [H' H]]. injection H as <-.
      simpl. rewrite str_eqb_refl. simpl. f_equal. auto.
    + destruct (missing phoneNumbers p) as [n|] eqn:M; [|apply IH].
      intros H. apply bind_Ok in H as [lbl [_ H]].
      apply bind_Ok in H as [app' [H' H]]. injection H as <-.
      simpl. destruct (str_eqb n m) eqn:E'; [|auto].
      exfalso. apply str_eqb_eq in E'. subst n.
      apply missing_Some in M as [M _].
      pose proof (counterpart_injective _ _ M Hc) as Heq.
      rewrite Heq, str_eqb_refl in E. discriminate.
Qed.

Lemma filter_one {A} (f : A -> bool) (l : list A) (i : nat) (x : A) :
  nth_error l i = Some x -> f x = true -> 1 <= length (filter f l).
Proof.
  revert i; induction l as [|y l IH]; intros [|i]; simpl; try discriminate.
  - intros [= ->] ->. simpl. lia.
  - intros Hi Hx. specialize (IH i Hi Hx). destruct (f y); simpl; lia.
Qed.

Lemma filter_two {A} (f : A -> bool) (l : list A) (i j : nat) (x y : A) :
  i <> j -> nth_error l i = Some x -> nth_error l j = Some y ->
  f x = true -> f y = true -> 2 <= length (filter f l).
Proof.
  revert i j; induction l as [|z l IH]; intros [|i] [|j] Hij; simpl;
    try discriminate; try contradiction.
  - intros [= ->] Hj -> Hy. simpl.
    pose proof (filter_one f l j Hj Hy). lia.
  - intros Hi [= ->] Hx ->. simpl.
    pose proof (filter_one f l i Hi Hx). lia.
  - intros Hi Hj Hx Hy.
    assert (i <> j) by congruence.
    specialize (IH i j H Hi Hj Hx Hy). destruct (f z); simpl; lia.
Qed.

(** C9.  There is a contact for which [handleFix] appends the same number
    twice.  In general, when the cleaned number [c] has the other version
    [m] and no entry of the contact cleans to [m], the appended entries of
    the list [handleFix] returns have as many entries with the number [m]
    as the contact has entries cleaning to [c]: one per source entry, so at
    least two when two entries at different positions clean to [c]. *)
Theorem handleFix_one_counterpart_per_entry :
  (exists contact out m,
     handleFix contact = Ok out
     /\ 2 <= count_number m (appended (phoneNumbers contact) out))
  /\ forall contact c m,
       counterpart c = Some m ->
       someNumber (phoneNumbers contact) m = false ->
       (plain_labels (phoneNumbers contact) ->
        exists out, handleFix contact = Ok out)
       /\ forall out, handleFix contact = Ok out ->
            count_number m (appended (phoneNumbers contact) out)
            = count_clean c (phoneNumbers contact)
            /\ forall i j p q,
                 i <> j ->
                 nth_error (phoneNumbers contact) i = Some p ->
                 nth_error (phoneNumbers contact) j = Some q ->
                 strip_separators (number p) = c ->
                 strip_separators (number q) = c ->
                 2 <= count_number m (appended (phoneNumbers contact) out).
Proof.
  assert (General : forall contact c m,
    counterpart c = Some m ->
    someNumber (phoneNumbers contact) m = false ->
    forall out, handleFix contact = Ok out ->
      count_number m (appended (phoneNumbers contact) out)
      = count_clean c (phoneNumbers contact)).
  { intros contact c m Hc Hm out H.
    apply handleFix_Ok in H as [app [Hs ->]].
    rewrite appended_app. eapply synthesized_count; eassumption. }
  split.
  - exists twins, twins_repaired, (js "+250788123456").
    split; [reflexivity | vm_compute; constructor].
  - intros contact c m Hc Hm. split; [apply handleFix_total|].
    intros out H. rewrite (General contact c m Hc Hm out H).
    split; trivial. intros i j p q Hij Hi Hj Hp Hq.
    apply (filter_two _ _ Hij Hi Hj); apply str_eqb_eq; assumption.
Qed.

Lemma handleFix_one_counterpart_per_entry_witness :
  handleFix twins = Ok twins_repaired
  /\ count_clean (js "0788123456") (phoneNumbers twins) = 2
  /\ count_number (js "+250788123456")
       (appended (phoneNumbers twins) twins_repaired) = 2.
Proof.
  split; [reflexivity|]. split; [reflexivity|].
  rewrite (proj1 (proj2 (proj2 handleFix_one_counterpart_per_entry
                          twins (js "0788123456") (js "+250788123456")
                          eq_refl eq_refl) twins_repaired eq_refl)).
  reflexivity.
Defined.

(** C5, as claimed, fails: the two entries appended for [two_mobiles] carry
    the same label, because [existingLabels] is computed before the loop
    and never extended. *)
Lemma handleFix_labels_collide :
  handleFix two_mobiles = Ok two_mobiles_repaired
  /\ ~ NoDup (map label (appended (phoneNumbers two_mobiles) two_mobiles_repaired)).
Proof.
  split; [reflexivity|].
  intros H. change (NoDup [js "mobile'"; js "mobile'"]) in H.
  inversion H as [|x l Hin _]; subst. apply Hin. left. reflexivity.
Qed.

(** C5, amended.  On a contact whose labels are plain, [handleFix] returns
    a list, and the label of every appended entry differs from every label
    the contact had before the repair. *)
Theorem handleFix_fresh_labels (contact : Contact) :
  plain_labels (phoneNumbers contact) ->
  exists out,
    handleFix contact = Ok out
    /\ forall q, In q (appended (phoneNumbers contact) out) ->
         ~ In (label q) (map label (phoneNumbers contact)).
Proof.
  intros Hplain. destruct (handleFix_total contact Hplain) as [out H].
  exists out. split; trivial.
  apply handleFix_Ok in H as [app [Hs ->]]. rewrite appended_app.
  intros q Hq. apply synthesized_shape in Hs. rewrite Forall_forall in Hs.
  destruct (Hs q Hq) as [_ [p [Hp [_ Hl]]]].
  unfold plain_labels in Hplain. rewrite Forall_forall in Hplain.
  rewrite getNextLabel_plain in Hl by auto. injection Hl as <-.
  apply nextLabel_from_fresh.
Qed.

Lemma handleFix_fresh_labels_witness :
  exists out,
    handleFix two_mobiles = Ok out
    /\ forall q, In q (appended (phoneNumbers two_mobiles) out) ->
         ~ In (label q) [js "mobile"; js "mobile"].
Proof.
  apply (handleFix_fresh_labels two_mobiles).
  repeat constructor.
Defined.

(** ** [getNextLabel] against its description *)

(** C6, as claimed, fails twice: a prime inside the label is removed too,
    and a label with a character that has a meaning in a pattern makes the
    pattern match labels that are not the base followed by primes. *)
Lemma getNextLabel_not_trailing :
  (getNextLabel (js "o'clock") [] = Ok (js "oclock'")
   /\ getNextLabel (js "o'clock") []
      <> Ok (nextLabel_trailing (js "o'clock") []))
  /\ (getNextLabel (js "a.b") [js "axb''"] = Ok (js "a.b'''")
      /\ getNextLabel (js "a.b") [js "axb''"]
         <> Ok (nextLabel_trailing (js "a.b") [js "axb''"])).
Proof. repeat split; try reflexivity; discriminate. Qed.

(** C6, amended.  For a label that is plain once ALL its primes are removed
    (the base), [getNextLabel] returns the base followed by [m + 1] primes,
    where [m] is the largest [k] such that the base followed by [k] primes
    is among the existing labels, and [0] when there is none; the three
    examples of the specification hold. *)
Theorem getNextLabel_spec :
  (forall label existingLabels,
     plain_label label = true ->
     let base := remove_primes label in
     exists m,
       getNextLabel label existingLabels = Ok (base ++ primes (m + 1))
       /\ (forall k, In (base ++ primes k) existingLabels -> k <= m)
       /\ (m = 0 \/ In (base ++ primes m) existingLabels))
  /\ getNextLabel (js "mobile") [] = Ok (js "mobile'")
  /\ getNextLabel (js "mobile") [js "mobile'"] = Ok (js "mobile''")
  /\ getNextLabel (js "mobile'") [js "mobile"; js "mobile'"] = Ok (js "mobile''").
Proof.
  split; [|repeat split; reflexivity].
  intros label existingLabels H base.
  exists (max_primed base existingLabels). split; [|split].
  - apply getNextLabel_plain. assumption.
  - intros k. apply max_primed_upper.
  - apply max_primed_attained.
Qed.

Lemma getNextLabel_spec_witness :
  exists m,
    getNextLabel (js "work'") [js "work"; js "work''"; js "works'''"]
    = Ok (js "work" ++ primes (m + 1))
    /\ (forall k, In (js "work" ++ primes k)
                    [js "work"; js "work''"; js "works'''"] -> k <= m)
    /\ (m = 0 \/ In (js "work" ++ primes m)
                   [js "work"; js "work''"; js "works'''"]).
Proof.
  apply (proj1 getNextLabel_spec (js "work'")
           [js "work"; js "work''"; js "works'''"]).
  reflexivity.
Defined.

(** ** The country-code helpers *)

Lemma addCountryCode_local (number : jsstring) :
  startsWith (js "07") (strip_separators number) = true ->
  addCountryCode number = js "+250" ++ strip_separators number
  /\ addCountryCode number <> js "+25" ++ strip_separators number.
Proof.
  intros H. unfold addCountryCode. rewrite H. split; trivial.
  apply startsWith_iff in H as [t ->]. discriminate.
Qed.

(** C1.  [addCountryCode] prepends "+250", not "+25", to a cleaned number
    that starts with "07": on "0788123456" it returns "+2500788123456",
    while the loop of [handleFix] appends "+250788123456" for the same
    number. *)
Theorem addCountryCode_disagrees_with_handleFix :
  (forall number,
     startsWith (js "07") (strip_separators number) = true ->
     addCountryCode number = js "+250" ++ strip_separators number
     /\ addCountryCode number <> js "+25" ++ strip_separators number)
  /\ addCountryCode (js "0788123456") = js "+2500788123456"
  /\ handleFix (mkContact (js "5") (js "Jean") [phone "mobile" "0788123456"] true)
     = Ok [phone "mobile" "0788123456"; phone "mobile'" "+250788123456"].
Proof.
  split; [exact addCountryCode_local|].
  split; reflexivity.
Qed.

Lemma addCountryCode_disagrees_with_handleFix_witness :
  addCountryCode (js "078 812-3456") = js "+2500788123456"
  /\ addCountryCode (js "078 812-3456") <> js "+250788123456".
Proof.
  apply (proj1 addCountryCode_disagrees_with_handleFix (js "078 812-3456")).
  reflexivity.
Defined.

(** C10.  Outside their prefixes the two helpers return the cleaned number:
    [addCountryCode] when it does not start with "07", [removeCountryCode]
    when it does not start with "+2507".  Both are total functions. *)
Theorem country_code_helpers_total :
  (forall number,
     startsWith (js "07") (strip_separators number) = false ->
     addCountryCode number = strip_separators number)
  /\ (forall number,
        startsWith (js "+2507") (strip_separators number) = false ->
        removeCountryCode number = strip_separators number).
Proof.
  split; intros number H.
  - unfold addCountryCode. rewrite H. reflexivity.
  - unfold removeCountryCode. rewrite H. reflexivity.
Qed.

Lemma country_code_helpers_total_witness :
  addCountryCode (js "+1 555-123 4567") = js "+15551234567"
  /\ removeCountryCode (js "078 812-3456") = js "0788123456".
Proof.
  split.
  - apply (proj1 country_code_helpers_total (js "+1 555-123 4567")).
    reflexivity.
  - apply (proj2 country_code_helpers_total (js "078 812-3456")).
    reflexivity.
Defined.

(** ** The contact filter of [loadContacts] and [validateContact] *)

Section Filter.

Variable phoneNumbers : list PhoneNumber.

Lemma rwandanNumbers_In (n : jsstring) :
  In n (cleanRwandanNumbers phoneNumbers) <->
  (exists p, In p phoneNumbers /\ strip_separators (number p) = n)
  /\ isRwandanNumber n = true.
Proof.
  unfold cleanRwandanNumbers. rewrite filter_In, map_map, in_map_iff.
  split; intros [[p [H1 H2]] HR]; eauto.
Qed.

Lemma rwandanNumbers_clean (n : jsstring) :
  In n (cleanRwandanNumbers phoneNumbers) -> strip_separators n = n.
Proof.
  intros H. apply rwandanNumbers_In in H as [[p [_ <-]] _].
  apply strip_separators_idem.
Qed.

Lemma includes_counterpart (c m : jsstring) :
  strip_separators c = c -> counterpart c = Some m ->
  includes (cleanRwandanNumbers phoneNumbers) m = someNumber phoneNumbers m.
Proof.
  intros Hc Hm. apply eq_true_iff_eq.
  rewrite includes_iff, rwandanNumbers_In, someNumber_iff.
  split; [tauto|]. intros H. split; trivial.
  apply counterpart_isRwandan.
  - eapply counterpart_clean; eassumption.
  - exists c. apply counterpart_involutive. assumption.
Qed.

Lemma missing_version_loop_iff (all rest : list jsstring) :
  missing_version_loop all rest = true <->
  exists n, In n rest
    /\ (includes all (if startsWith (js "07") n then js "+25" ++ n else n)
        = false
        \/ includes all
             (if startsWith (js "+2507") n then slice 3 n else n) = false).
Proof.
  induction rest as [|n rest IH]; cbn [missing_version_loop].
  - split; [discriminate | intros [n [[] _]]].
  - destruct (negb _ || negb _) eqn:E.
    + split; trivial. intros _. exists n. split; [left; trivial|].
      apply orb_true_iff in E. rewrite !negb_true_iff in E. exact E.
    + rewrite IH. apply orb_false_iff in E. rewrite !negb_false_iff in E.
      destruct E as [E1 E2]. split.
      * intros [n' [Hn' H]]. exists n'. split; [right; trivial | exact H].
      * intros [n' [[<-|Hn'] H]]; [|eauto].
        exfalso. destruct H as [H|H].
        -- exact (diff_true_false (eq_trans (eq_sym E1) H)).
        -- exact (diff_true_false (eq_trans (eq_sym E2) H)).
Qed.

(** The filter keeps a contact exactly when one of its entries lacks its
    other version. *)
Lemma needsBothVersions_missing :
  needsBothVersions (map number phoneNumbers) = true <->
  exists p m, In p phoneNumbers /\ missing phoneNumbers p = Some m.
Proof.
  unfold needsBothVersions. fold (cleanRwandanNumbers phoneNumbers).
  set (rwandanNumbers := cleanRwandanNumbers phoneNumbers).
  assert (E : (if length rwandanNumbers =? 0 then false
               else missing_version_loop rwandanNumbers rwandanNumbers)
              = missing_version_loop rwandanNumbers rwandanNumbers)
    by (destruct rwandanNumbers; reflexivity).
  rewrite E, missing_version_loop_iff. clear E. split.
  - intros [n [Hn H]]. pose proof (rwandanNumbers_clean _ Hn) as Hclean.
    pose proof (proj2 (includes_iff rwandanNumbers n) Hn) as Hself.
    apply rwandanNumbers_In in Hn as [[p [Hp Hpn]] HR].
    apply counterpart_isRwandan in HR as [m Hm]; trivial.
    exists p, m. split; trivial. apply missing_Some. rewrite Hpn.
    split; trivial.
    rewrite <- (includes_counterpart Hclean Hm).
    unfold counterpart in Hm.
    destruct (startsWith (js "07") n) eqn:L.
    + rewrite (local_not_international _ L) in H.
      injection Hm as <-. destruct H as [H|H]; [exact H | congruence].
    + destruct (startsWith (js "+2507") n); [|discriminate].
      injection Hm as <-. destruct H as [H|H]; [congruence | exact H].
  - intros [p [m [Hp M]]]. apply missing_Some in M as [Hm Hno].
    set (n := strip_separators (number p)) in *.
    assert (Hclean : strip_separators n = n) by apply strip_separators_idem.
    assert (Hn : In n rwandanNumbers).
    { apply rwandanNumbers_In. split; [eauto|].
      apply counterpart_isRwandan; eauto. }
    exists n. split; trivial.
    rewrite <- (includes_counterpart Hclean Hm) in Hno.
    unfold counterpart in Hm.
    destruct (startsWith (js "07") n) eqn:L.
    + injection Hm as <-. left. exact Hno.
    + destruct (startsWith (js "+2507") n); [|discriminate].
      injection Hm as <-. right. exact Hno.
Qed.

Lemma needsBothVersions_missing_list :
  needsBothVersions (map number phoneNumbers) = true <->
  missing_list phoneNumbers phoneNumbers <> [].
Proof.
  rewrite needsBothVersions_missing. split.
  - intros [p [m [Hp M]]] E.
    assert (In m (missing_list phoneNumbers phoneNumbers))
      by (apply missing_list_In; eauto).
    rewrite E in H. contradiction.
  - intros H.
    destruct (missing_list phoneNumbers phoneNumbers) as [|m r] eqn:E;
      [contradiction|].
    assert (Hm : In m (missing_list phoneNumbers phoneNumbers))
      by (rewrite E; left; trivial).
    apply missing_list_In in Hm as [p [Hp M]]. eauto.
Qed.


End Filter.

Section Validate.

Lemma validate_loop_true (all rest : list jsstring) :
  validate_loop all rest = true ->
  forall n, In n rest ->
    includes all (addCountryCode n) = true
    /\ includes all (removeCountryCode n) = true.
Proof.
  induction rest as [|x rest IH]; cbn [validate_loop]; [intros _ n []|].
  destruct (includes all (addCountryCode x)) eqn:E1; [|discriminate].
  destruct (includes all (removeCountryCode x)) eqn:E2; [|discriminate].
  simpl. intros H n [<-|Hn]; auto.
Qed.

(** What [addCountryCode] makes of a local number is not a Rwandan number:
    it starts with "+25007". *)
Lemma addCountryCode_not_Rwandan (n : jsstring) :
  startsWith (js "07") (strip_separators n) = true ->
  isRwandanNumber (addCountryCode n) = false.
Proof.
  intros H. unfold addCountryCode. rewrite H. unfold isRwandanNumber.
  rewrite strip_separators_app, strip_separators_idem.
  apply startsWith_iff in H as [t ->]. reflexivity.
Qed.

Lemma validate_loop_all_Rwandan (all : list jsstring) :
  (forall n, In n all -> isRwandanNumber n = true) ->
  validate_loop all all = true -> all = [].
Proof.
  intros HR H. destruct all as [|n0 all']; trivial. exfalso.
  set (all := n0 :: all') in *.
  assert (Hlocal : forall n, In n all ->
            startsWith (js "07") (strip_separators n) = false).
  { intros n Hn. apply not_true_iff_false. intros L.
    destruct (validate_loop_true _ _ H n Hn) as [Hin _].
    apply includes_iff, HR in Hin.
    rewrite addCountryCode_not_Rwandan in Hin by assumption. discriminate. }
  assert (Hn0 : In n0 all) by (left; reflexivity).
  destruct (validate_loop_true _ _ H n0 Hn0) as [_ Hin].
  pose proof (HR n0 Hn0) as R. unfold isRwandanNumber in R.
  rewrite (Hlocal n0 Hn0) in R. cbn [orb] in R.
  unfold removeCountryCode in Hin. rewrite R in Hin.
  apply includes_iff, Hlocal in Hin.
  rewrite strip_separators_slice, slice3_local in Hin by assumption.
  discriminate.
Qed.

(** X1.  [validateContact] returns [false] on every list: a local number
    never finds what [addCountryCode] makes of it among the Rwandan numbers,
    and an international one needs a local one in the list. *)
Lemma validateContact_false (phoneNumbers : list PhoneNumber) :
  validateContact phoneNumbers = false.
Proof.
  unfold validateContact.
  set (rw := filter isRwandanNumber _).
  destruct (validate_loop rw rw) eqn:E; trivial.
  apply validate_loop_all_Rwandan in E.
  - rewrite E. reflexivity.
  - intros n Hn. apply filter_In in Hn. tauto.
Qed.

End Validate.




(** ** What reaches [handleFix] from the screen *)

Section Formatted.

Variable formatLabel : option jsstring -> jsstring.

(** [loadContacts] keeps only the Rwandan numbers of a stored contact: the
    contacts of the screen have no other entry. *)
Lemma formattedPhoneNumbers_Rwandan (phones : list ExpoPhoneNumber) :
  Forall (fun p => isRwandanNumber (number p) = true)
         (formattedPhoneNumbers formatLabel phones).
Proof.
  induction phones as [|e phones IH]; simpl; [constructor|].
  destruct (expo_number e) as [n|]; trivial.
  destruct (isRwandanNumber n) eqn:E; trivial.
  constructor; assumption.
Qed.

End Formatted.

(** * Further properties of the code *)

(** ** [getNextLabel] *)

Lemma getNextLabel_Ok (label : jsstring) (existingLabels : list jsstring)
    (r : jsstring) :
  getNextLabel label existingLabels = Ok r ->
  exists k, r = remove_primes label ++ primes (k + 1).
Proof.
  unfold getNextLabel. intros H. apply bind_Ok in H as [pat [_ H]].
  injection H as <-. eauto.
Qed.

Lemma remove_primes_base_primes (label : jsstring) (k : nat) :
  remove_primes (remove_primes label ++ primes k) = remove_primes label.
Proof.
  unfold remove_primes at 1. rewrite filter_app.
  replace (filter _ (primes k)) with (@nil N)
    by (induction k; simpl; auto).
  rewrite app_nil_r. apply forallb_filter_id, forallb_filter.
Qed.

Lemma count_primes_base_primes (label : jsstring) (k : nat) :
  count_primes (remove_primes label ++ primes k) = k.
Proof.
  rewrite count_primes_app, count_primes_primes,
    (count_primes_none _ (remove_primes_no_prime label)).
  reflexivity.
Qed.

Lemma nextLabel_from_successive (b : jsstring) (l : list jsstring) :
  nextLabel_from b (nextLabel_from b l :: l) = nextLabel_from b l ++ primes 1.
Proof.
  unfold nextLabel_from at 1. simpl max_primed. unfold nextLabel_from at 1.
  rewrite (proj2 (primed_count_iff b _ (max_primed b l + 1)) eq_refl).
  unfold nextLabel_from. rewrite <- app_assoc. unfold primes.
  rewrite <- repeat_app. do 2 f_equal. lia.
Qed.

(** X2.  Successive labels: once the label returned for a plain label is
    among the existing labels, [getNextLabel] returns it with one more
    prime, from the original label as well as from the returned one. *)
Theorem getNextLabel_successive (label : jsstring)
    (existingLabels : list jsstring) (r : jsstring) :
  plain_label label = true ->
  getNextLabel label existingLabels = Ok r ->
  getNextLabel label (r :: existingLabels) = Ok (r ++ primes 1)
  /\ getNextLabel r (r :: existingLabels) = Ok (r ++ primes 1).
Proof.
  intros Hp H.
  assert (Hb : remove_primes r = remove_primes label).
  { apply getNextLabel_Ok in H as [k ->]. apply remove_primes_base_primes. }
  rewrite getNextLabel_plain in H by assumption. injection H as <-.
  assert (Hp' : plain_label (nextLabel_from (remove_primes label) existingLabels)
                = true)
    by (unfold plain_label in *; rewrite Hb; assumption).
  rewrite !getNextLabel_plain by assumption.
  rewrite Hb, nextLabel_from_successive.
  split; reflexivity.
Qed.

Lemma getNextLabel_successive_witness :
  getNextLabel (js "mobile") [js "mobile'"; js "mobile"; js "home"]
  = Ok (js "mobile''")
  /\ getNextLabel (js "mobile'") [js "mobile'"; js "mobile"; js "home"]
     = Ok (js "mobile''").
Proof.
  apply (getNextLabel_successive (js "mobile") [js "mobile"; js "home"]);
    reflexivity.
Defined.

Lemma parse_quantifier_first (q : N) (p : jsstring) :
  RegExp.is_quantifier q = true ->
  RegExp.parse (RegExp.caret :: q :: p) = SyntaxError.
Proof.
  intros Hq.
  change (RegExp.parse (RegExp.caret :: q :: p))
    with (RegExp.cons_term RegExp.Bol (RegExp.parse (q :: p))).
  assert (E : RegExp.parse (q :: p) = SyntaxError).
  { cbn [RegExp.parse]. unfold RegExp.is_quantifier in Hq.
    rewrite !orb_true_iff, !N.eqb_eq in Hq.
    destruct Hq as [[->| ->]| ->]; reflexivity. }
  rewrite E. reflexivity.
Qed.

(** X3.  A label that, without its primes, starts with [*], [+] or [?]
    makes [new RegExp] throw: [getNextLabel] ends in a [SyntaxError]
    whatever the existing labels. *)
Theorem getNextLabel_SyntaxError (label : jsstring)
    (existingLabels : list jsstring) (q : N) (rest : jsstring) :
  remove_primes label = q :: rest ->
  RegExp.is_quantifier q = true ->
  getNextLabel label existingLabels = SyntaxError.
Proof.
  intros Hb Hq. unfold getNextLabel. rewrite Hb.
  change (js "^" ++ (q :: rest) ++ js "'*$")
    with (RegExp.caret :: q :: (rest ++ js "'*$")).
  rewrite parse_quantifier_first by assumption. reflexivity.
Qed.

Lemma getNextLabel_SyntaxError_witness :
  getNextLabel (js "'+1 office") [js "home"] = SyntaxError.
Proof.
  apply (getNextLabel_SyntaxError (js "'+1 office") [js "home"]
           (q := 43%N) (rest := js "1 office")); reflexivity.
Defined.

(** ** The repair *)

(** X4.  Where an appended entry comes from: its number has no white space
    or hyphen, is a Rwandan number that no entry of the contact cleans to,
    and is the other version of the cleaned number of some Rwandan entry of
    the contact, whose label it carries with a different count of primes. *)
Theorem handleFix_appended_source (contact : Contact) (out : list PhoneNumber)
    (q : PhoneNumber) :
  handleFix contact = Ok out ->
  In q (appended (phoneNumbers contact) out) ->
  strip_separators (number q) = number q
  /\ isRwandanNumber (number q) = true
  /\ someNumber (phoneNumbers contact) (number q) = false
  /\ exists p,
       In p (phoneNumbers contact)
       /\ isRwandanNumber (number p) = true
       /\ counterpart (strip_separators (number p)) = Some (number q)
       /\ remove_primes (label q) = remove_primes (label p)
       /\ 1 <= count_primes (label q).
Proof.
  intros H Hq. apply handleFix_Ok in H as [app [Hs ->]].
  rewrite appended_app in Hq.
  apply synthesized_shape in Hs. rewrite Forall_forall in Hs.
  destruct (Hs q Hq) as [_ [p [Hp [Hm Hl]]]].
  pose proof (missing_clean _ _ Hm) as Hclean.
  pose proof (missing_isRwandan _ _ Hm) as HR.
  apply missing_Some in Hm as [Hc Hno].
  apply getNextLabel_Ok in Hl as [k Hl].
  assert (Hb : remove_primes (label q) = remove_primes (label p))
    by (rewrite Hl; apply remove_primes_base_primes).
  assert (Hk : 1 <= count_primes (label q))
    by (rewrite Hl, count_primes_base_primes; lia).
  repeat split; trivial. exists p. repeat split; trivial.
  destruct (isRwandanNumber (number p)) eqn:E; trivial.
  rewrite isRwandanNumber_counterpart in Hc by assumption. discriminate.
Qed.

Lemma handleFix_appended_source_witness :
  strip_separators (js "+250788123456") = js "+250788123456"
  /\ isRwandanNumber (js "+250788123456") = true
  /\ someNumber (phoneNumbers ana) (js "+250788123456") = false
  /\ exists p,
       In p (phoneNumbers ana)
       /\ isRwandanNumber (number p) = true
       /\ counterpart (strip_separators (number p)) = Some (js "+250788123456")
       /\ remove_primes (js "mobile'") = remove_primes (label p)
       /\ 1 <= count_primes (js "mobile'").
Proof.
  apply (handleFix_appended_source ana (out := ana_repaired)
           (phone "mobile'" "+250788123456")).
  - reflexivity.
  - left. reflexivity.
Defined.

Lemma synthesized_Ok_labels (phoneNumbers : list PhoneNumber)
    (existingLabels : list jsstring) (l app : list PhoneNumber) :
  synthesized phoneNumbers existingLabels l = Ok app ->
  forall p m, In p l -> missing phoneNumbers p = Some m ->
    exists r, getNextLabel (label p) existingLabels = Ok r.
Proof.
  revert app; induction l as [|p0 l IH]; intros app H p m Hp Hm.
  - destruct Hp.
  - cbn [synthesized] in H. destruct Hp as [->|Hp].
    + rewrite Hm in H. apply bind_Ok in H as [r [Hr _]]. eauto.
    + destruct (missing phoneNumbers p0).
      * apply bind_Ok in H as [r [_ H]]. apply bind_Ok in H as [app' [H _]].
        eapply IH; eassumption.
      * eapply IH; eassumption.
Qed.

(** X5.  No partial repair: when an entry of the contact lacks its other
    version and its label, without primes, starts with [*], [+] or [?],
    [handleFix] returns no list at all, whatever the other entries are. *)
Theorem handleFix_rejected_label (contact : Contact) (p : PhoneNumber)
    (m : jsstring) (q : N) (rest : jsstring) :
  In p (phoneNumbers contact) ->
  counterpart (strip_separators (number p)) = Some m ->
  someNumber (phoneNumbers contact) m = false ->
  remove_primes (label p) = q :: rest ->
  RegExp.is_quantifier q = true ->
  forall out, handleFix contact <> Ok out.
Proof.
  intros Hp Hc Hno Hb Hq out H. apply handleFix_Ok in H as [app [Hs _]].
  assert (Hm : missing (phoneNumbers contact) p = Some m)
    by (apply missing_Some; auto).
  destruct (synthesized_Ok_labels _ _ _ Hs p Hp Hm) as [r Hr].
  unfold getNextLabel in Hr. rewrite Hb in Hr.
  change (js "^" ++ (q :: rest) ++ js "'*$")
    with (RegExp.caret :: q :: (rest ++ js "'*$")) in Hr.
  rewrite parse_quantifier_first in Hr by assumption. discriminate.
Qed.

Lemma handleFix_rejected_label_witness :
  handleFix (mkContact (js "61") (js "Didier")
               [phone "home" "0788123456"; phone "+1" "0788654321"] true)
  = SyntaxError
  /\ handleFix (mkContact (js "61") (js "Didier")
                  [phone "home" "0788123456"; phone "+1" "0788654321"] true)
     <> Ok [phone "home" "0788123456"; phone "+1" "0788654321";
            phone "home'" "+250788123456"].
Proof.
  split; [reflexivity|].
  apply (handleFix_rejected_label
           (mkContact (js "61") (js "Didier")
              [phone "home" "0788123456"; phone "+1" "0788654321"] true)
           (phone "+1" "0788654321")
           (m := js "+250788654321") (q := 43%N) (rest := js "1")).
  - right. left. reflexivity.
  - reflexivity.
  - reflexivity.
  - reflexivity.
  - reflexivity.
Defined.

(** X6.  A repaired contact leaves the screen: on the list [handleFix]
    returned, the test of the [loadContacts] filter is [false], so the
    contact stored with that list is filtered out at the next load. *)
Theorem handleFix_then_filtered_out (contact : Contact) (out : list PhoneNumber) :
  handleFix contact = Ok out ->
  needsBothVersions (map number out) = false
  /\ contactFilter (storedContact (withPhoneNumbers contact out)) = false.
Proof.
  intros H.
  assert (E : needsBothVersions (map number out) = false).
  { apply not_true_iff_false. rewrite needsBothVersions_missing.
    intros [p [m [Hp Hm]]].
    rewrite (handleFix_closed contact H p Hp) in Hm. discriminate. }
  split; trivial.
  unfold contactFilter, storedContact. cbn -[needsBothVersions].
  destruct (negb _ || _); trivial.
  rewrite <- E. f_equal.
  clear. induction out as [|p l IH]; simpl; congruence.
Qed.

Lemma handleFix_then_filtered_out_witness :
  needsBothVersions (map number ana_repaired) = false
  /\ contactFilter (storedContact (withPhoneNumbers ana ana_repaired)) = false.
Proof. apply (handleFix_then_filtered_out ana). reflexivity. Defined.

(** ** The filter and the contacts of the screen *)

Lemma filter_strip_Rwandan (numbers : list jsstring) :
  filter isRwandanNumber
    (map strip_separators (filter isRwandanNumber numbers))
  = filter isRwandanNumber (map strip_separators numbers).
Proof.
  induction numbers as [|n l IH]; simpl; trivial.
  assert (E : isRwandanNumber (strip_separators n) = isRwandanNumber n)
    by (unfold isRwandanNumber; rewrite strip_separators_idem; reflexivity).
  destruct (isRwandanNumber n) eqn:R; simpl; rewrite E; rewrite IH; reflexivity.
Qed.

Lemma formattedPhoneNumbers_numbers (f : option jsstring -> jsstring)
    (phones : list ExpoPhoneNumber) :
  map number (formattedPhoneNumbers f phones)
  = filter isRwandanNumber (present_numbers phones).
Proof.
  induction phones as [|e phones IH]; simpl; trivial.
  destruct (expo_number e) as [n|]; trivial. simpl.
  destruct (isRwandanNumber n); simpl; congruence.
Qed.

(** X7.  What the screen sends to the store.  For a stored contact that the
    filter of [loadContacts] keeps, the contact of the screen holds the
    stored Rwandan numbers only, and the list [handleFix] returns for it is
    strictly longer and holds Rwandan numbers only: the stored numbers that
    are not Rwandan are not part of the update. *)
Theorem screen_contact_update (formatLabel : option jsstring -> jsstring)
    (stored : ExpoContact) (phones : list ExpoPhoneNumber)
    (contact : Contact) (out : list PhoneNumber) :
  contactFilter stored = true ->
  expo_phoneNumbers stored = Some phones ->
  phoneNumbers contact = formattedPhoneNumbers formatLabel phones ->
  handleFix contact = Ok out ->
  map number (phoneNumbers contact)
  = filter isRwandanNumber (present_numbers phones)
  /\ length (phoneNumbers contact) < length out
  /\ Forall (fun p => isRwandanNumber (number p) = true) out.
Proof.
  intros Hf Hph Hc H.
  assert (Hn : needsBothVersions (map number (phoneNumbers contact)) = true).
  { rewrite Hc, formattedPhoneNumbers_numbers.
    unfold needsBothVersions at 1. rewrite filter_strip_Rwandan.
    unfold contactFilter in Hf. rewrite Hph in Hf.
    destruct (negb _ || _); [discriminate | exact Hf]. }
  split; [rewrite Hc; apply formattedPhoneNumbers_numbers|].
  apply handleFix_Ok in H as [app [Hs ->]]. split.
  - apply needsBothVersions_missing_list in Hn.
    rewrite <- (synthesized_numbers _ _ _ Hs) in Hn.
    rewrite length_app. destruct app; [contradiction | simpl; lia].
  - apply Forall_app. split.
    + rewrite Hc. apply formattedPhoneNumbers_Rwandan.
    + apply Forall_forall. intros q Hq.
      apply (synthesized_Rwandan _ _ _ Hs q Hq).
Qed.

Lemma screen_contact_update_witness :
  map number [phone "mobile" "078 812-3456"] = [js "078 812-3456"]
  /\ 1 < 2
  /\ Forall (fun p => isRwandanNumber (number p) = true)
       [phone "mobile" "078 812-3456"; phone "mobile'" "+250788123456"].
Proof.
  apply (@screen_contact_update (fun _ => js "mobile")
           (mkExpoContact (Some (js "52")) (Some (js "Eve")) None
              (Some [mkExpoPhone None (Some (js "078 812-3456")) None;
                     mkExpoPhone None (Some (js "+15551234567")) None;
                     mkExpoPhone None None None]))
           [mkExpoPhone None (Some (js "078 812-3456")) None;
            mkExpoPhone None (Some (js "+15551234567")) None;
            mkExpoPhone None None None]
           (mkContact (js "52") (js "Eve") [phone "mobile" "078 812-3456"] true)
           [phone "mobile" "078 812-3456"; phone "mobile'" "+250788123456"]);
    reflexivity.
Defined.

(** ** The batch repair *)

Section Batch.

Variable contacts : list Contact.

Lemma fixSelected_loop_acc (selected : list jsstring) (acc : list Update) :
  fixSelected_loop contacts selected acc
  = (acc ++ fst (fixSelected_loop contacts selected []),
     snd (fixSelected_loop contacts selected [])).
Proof.
  revert acc; induction selected as [|i sel IH]; intros acc; simpl.
  - rewrite app_nil_r. reflexivity.
  - destruct (findContact contacts i) as [c|]; [|apply IH].
    destruct (updatedPhoneNumbers (phoneNumbers c)) as [l| |]; simpl;
      try (rewrite app_nil_r; reflexivity).
    rewrite (IH (acc ++ _)), (IH [_]). simpl.
    rewrite <- app_assoc. reflexivity.
Qed.

Lemma findContact_Some (i : jsstring) (c : Contact) :
  findContact contacts i = Some c -> In c contacts /\ contact_id c = i.
Proof.
  unfold findContact. intros H. apply find_some in H as [H1 H2].
  apply str_eqb_eq in H2. auto.
Qed.

(** X8.  What a batch starts: every update is for a selected id that is the
    id of a contact of the screen, the first one with that id, and carries
    its name and the list [handleFix] returns for it.  When the loop goes
    through, there is one update per selected id of a contact, in the order
    of the selection, and ids of no contact are skipped; when it stops at a
    contact whose repair throws, no update is started for that contact.
    The loop goes through when the labels of all contacts are plain. *)
Theorem handleFixSelected_updates (selectedContacts : list jsstring)
    (started : list Update) (o : outcome unit) :
  handleFixSelected contacts selectedContacts = (started, o) ->
  Forall (fun u =>
            In (update_id u) selectedContacts
            /\ exists c,
                 findContact contacts (update_id u) = Some c
                 /\ handleFix c = Ok (update_phoneNumbers u)
                 /\ update_name u = name c) started
  /\ (o = Ok tt ->
      map update_id started
      = filter (fun i => match findContact contacts i with
                         | Some _ => true
                         | None => false
                         end) selectedContacts)
  /\ (Forall (fun c => plain_labels (phoneNumbers c)) contacts -> o = Ok tt).
Proof.
  unfold handleFixSelected. revert started o.
  induction selectedContacts as [|i sel IH]; intros started o; simpl.
  - intros [= <- <-]. repeat split; constructor.
  - destruct (findContact contacts i) as [c|] eqn:F.
    + destruct (findContact_Some _ F) as [Hin Hid].
      destruct (updatedPhoneNumbers (phoneNumbers c)) as [l| |] eqn:U.
      * rewrite fixSelected_loop_acc.
        destruct (fixSelected_loop contacts sel []) as [st o'] eqn:L.
        simpl. intros [= <- <-].
        destruct (IH st o' eq_refl) as [H1 [H2 H3]]. split; [|split].
        -- constructor.
           ++ simpl. split; [left; congruence|].
              exists c. rewrite Hid. auto.
           ++ eapply Forall_impl; [|exact H1].
              simpl. intros u [Hu Hc]. auto.
        -- intros Ho. simpl. rewrite H2 by assumption. congruence.
        -- assumption.
      * intros [= <- <-]. split; [constructor|]. split; [discriminate|].
        intros Hp. rewrite Forall_forall in Hp.
        destruct (handleFix_total c (Hp c Hin)) as [out Hout].
        unfold handleFix in Hout. congruence.
      * intros [= <- <-]. split; [constructor|]. split; [discriminate|].
        intros Hp. rewrite Forall_forall in Hp.
        destruct (handleFix_total c (Hp c Hin)) as [out Hout].
        unfold handleFix in Hout. congruence.
    + intros H. destruct (IH started o H) as [H1 [H2 H3]].
      split; [|split; trivial].
      eapply Forall_impl; [|exact H1]. simpl. intros u [Hu Hc]. auto.
Qed.

End Batch.

Lemma handleFixSelected_updates_witness :
  map update_id
    [mkUpdate (js "23") twins_repaired (js "Eric Mugisha");
     mkUpdate (js "17") ana_repaired (js "Ana Uwase")]
  = [js "23"; js "17"]
  /\ handleFix twins = Ok twins_repaired.
Proof.
  destruct (@handleFixSelected_updates [ana; twins]
              [js "23"; js "99"; js "17"]
              [mkUpdate (js "23") twins_repaired (js "Eric Mugisha");
               mkUpdate (js "17") ana_repaired (js "Ana Uwase")]
              (Ok tt) eq_refl) as [H1 [H2 _]].
  split.
  - rewrite (H2 eq_refl). reflexivity.
  - inversion H1 as [|u l [_ [c [Hc [Hf _]]]] _]; subst.
    injection Hc as <-. exact Hf.
Defined.
